(** * config_schizophrenia.py: a shallow embedding and its properties

    The program scans a directory tree for configuration files, groups them
    by basename, reports the groups whose versions differ, audits five
    environment variables and computes an exit status.

    Python values are embedded as follows:
    - [str] is [string]; the operator [needle in hay] on strings is
      [str_contains];
    - a [pathlib] path is the list of its components ([Path.parts]);
    - the [defaultdict(list)] built by [find_config_files] is an association
      list in insertion order, which is the order [dict.items()] yields;
    - [os.environ] is a finite map from names to values;
    - the files that [open] may read form a finite map from the path string
      to what reading gives; a raised exception is the [Raised] outcome,
      carrying [str(e)]. *)

From Stdlib Require Import Ascii String.
From stdpp Require Import gmap strings list pretty.

Local Open Scope string_scope.
Local Open Scope list_scope.

(** ** Python strings *)

(** [needle in hay]: some suffix of [hay] starts with [needle]. *)
Fixpoint str_contains (needle hay : string) : bool :=
  if String.prefix needle hay then true
  else match hay with
       | EmptyString => false
       | String _ rest => str_contains needle rest
       end.

(** ['/'.join(parts)] and friends. *)
Fixpoint str_join (sep : string) (parts : list string) : string :=
  match parts with
  | [] => ""
  | [x] => x
  | x :: rest => x +:+ sep +:+ str_join sep rest
  end.

(** [c in s] for a single character [c]. *)
Fixpoint has_char (c : ascii) (s : string) : bool :=
  match s with
  | EmptyString => false
  | String d rest => if Ascii.eqb c d then true else has_char c rest
  end.

(** Shell-style matching of a file name against a pattern, as [fnmatch] does
    it for patterns made of literal characters, [*] and [?]. Bracket classes
    are not interpreted; no pattern of the program has one. *)
Fixpoint fnmatch (pat : string) : string -> bool :=
  match pat with
  | EmptyString => fun name =>
      match name with EmptyString => true | String _ _ => false end
  | String c pat' =>
      if Ascii.eqb c "*" then
        fix star (name : string) : bool :=
          if fnmatch pat' name then true
          else match name with
               | EmptyString => false
               | String _ name' => star name'
               end
      else if Ascii.eqb c "?" then fun name =>
        match name with
        | EmptyString => false
        | String _ name' => fnmatch pat' name'
        end
      else fun name =>
        match name with
        | EmptyString => false
        | String d name' => if Ascii.eqb c d then fnmatch pat' name' else false
        end
  end.

(** ** Paths *)

(** A relative [pathlib] path, as the tuple [Path.parts]. *)
Definition Path : Type := list string.

(** [str(path)] *)
Definition path_str (path : Path) : string :=
  match path with
  | [] => "."
  | _ => str_join "/" path
  end.

(** [path.name] *)
Definition path_name (path : Path) : string := List.last path "".

(** The directory tree below the working directory, as the sequence of its
    entries in traversal order. [Path('.').rglob(pattern)] yields the entries
    whose final component matches [pattern]. *)
Definition rglob (tree : list Path) (pattern : string) : list Path :=
  List.filter (fun path => fnmatch pattern (path_name path)) tree.

(** A tree entry as [pathlib] produces it: at least one component, and no
    component contains the separator. *)
Definition wf_path (path : Path) : Prop :=
  path <> [] /\ Forall (fun part => has_char "/" part = false) path.

(** ** File Discoverer *)

Definition CONFIG_PATTERNS : list string :=
  [".env"; "config*.json"; "settings*.py"; "*.yaml"; "*.yml"].

Definition EXCLUDED : list string :=
  ["__pycache__"; "venv"; ".git"; "node_modules"].

(** The last three characters of a pattern; those of the five patterns are
    literal and pairwise different. *)
Definition tail3 (pattern : string) : string :=
  String.substring (String.length pattern - 3) 3 pattern.

(** No [*] and no [?]: the pattern matches itself only. *)
Definition is_literal (pattern : string) : bool :=
  negb (has_char "*" pattern) && negb (has_char "?" pattern).

(** The dictionary of groups: basename, then the paths found under that
    name, in insertion order. *)
Definition ConfigGroups : Type := list (string * list string).

(** [configs[key].append(value)] on a [defaultdict(list)]. *)
Fixpoint dict_append (configs : ConfigGroups) (key value : string) : ConfigGroups :=
  match configs with
  | [] => [(key, [value])]
  | (k, vs) :: rest =>
      if String.eqb k key then (k, vs ++ [value]) :: rest
      else (k, vs) :: dict_append rest key value
  end.

(** [configs.get(key, [])] *)
Fixpoint dict_get (configs : ConfigGroups) (key : string) : list string :=
  match configs with
  | [] => []
  | (k, vs) :: rest => if String.eqb k key then vs else dict_get rest key
  end.

(** The guard of the inner loop:
    [any(part in str(path) for part in EXCLUDED)]. *)
Definition skipped (path : Path) : bool :=
  existsb (fun part => str_contains part (path_str path)) EXCLUDED.

(** The body of the inner loop. *)
Definition visit (configs : ConfigGroups) (path : Path) : ConfigGroups :=
  if skipped path then configs
  else dict_append configs (path_name path) (path_str path).

(** The paths that the guard lets through. *)
Definition kept (paths : list Path) : list Path :=
  List.filter (fun path => negb (skipped path)) paths.

Definition find_config_files (tree : list Path) : ConfigGroups :=
  fold_left
    (fun configs pattern => fold_left visit (rglob tree pattern) configs)
    CONFIG_PATTERNS [].

(** ** Exceptions *)

(** What running a piece of Python gives: a value, or a raised exception
    with its message. *)
Inductive outcome (A : Type) : Type :=
  | Returned (a : A)
  | Raised (msg : string).
Arguments Returned {A} a.
Arguments Raised {A} msg.

#[global] Instance outcome_ret : MRet outcome := fun A a => Returned a.
#[global] Instance outcome_bind : MBind outcome := fun A B k c =>
  match c with
  | Returned a => k a
  | Raised msg => Raised msg
  end.
#[global] Instance outcome_fmap : FMap outcome := fun A B f c =>
  match c with
  | Returned a => Returned (f a)
  | Raised msg => Raised msg
  end.

(** [try: body except Exception as e: handler(str(e))] *)
Definition try_except {A} (body : outcome A) (handler : string -> outcome A) : outcome A :=
  match body with
  | Returned a => Returned a
  | Raised msg => handler msg
  end.

(** [for x in xs: state = body(state, x)], stopping at the first exception. *)
Fixpoint for_in {A S} (xs : list A) (body : S -> A -> outcome S) (state : S) : outcome S :=
  match xs with
  | [] => Returned state
  | x :: rest => state' ← body state x; for_in rest body state'
  end.

(** ** Config Comparator *)

(** What reading a path gives: its text, or the message of the exception
    that [open] or [read] raises (permission, decoding, a directory). *)
Inductive file : Type :=
  | Content (text : string)
  | Unreadable (err : string).

(** [with open(path, 'r') as f: f.read()] *)
Definition open_read (fs : gmap string file) (path : string) : outcome string :=
  match fs !! path with
  | Some (Content text) => Returned text
  | Some (Unreadable err) => Raised err
  | None => Raised ("[Errno 2] No such file or directory: '" +:+ path +:+ "'")
  end.

(** The value put in place of the content of a file that failed to read. *)
Definition sentinel (err : string) : string := "ERROR: " +:+ err.

Record issue : Type := Issue {
  issue_file : string;
  issue_paths : list string;
  issue_differences : bool
}.

(** The body of the loop over [paths]. *)
Definition read_version (fs : gmap string file)
    (contents : list (string * string)) (path : string)
    : outcome (list (string * string)) :=
  try_except
    (text ← open_read fs path; mret (contents ++ [(path, text)]))
    (fun e => mret (contents ++ [(path, sentinel e)])).

(** [len(set(content for _, content in contents))] *)
Definition distinct_contents (contents : list (string * string)) : nat :=
  size (list_to_set (contents.*2) : gset string).

(** The body of the loop over [configs.items()]. *)
Definition compare_group (fs : gmap string file)
    (issues : list issue) (item : string * list string) : outcome (list issue) :=
  let '(filename, paths) := item in
  if (1 <? length paths)%nat then
    contents ← for_in paths (read_version fs) [];
    if (1 <? distinct_contents contents)%nat then
      mret (issues ++ [Issue filename paths true])
    else mret issues
  else mret issues.

Definition compare_configs (fs : gmap string file) (configs : ConfigGroups)
    : outcome (list issue) :=
  for_in configs (compare_group fs) [].

(** The content value that takes part in the comparison for one path. *)
Definition content_value (fs : gmap string file) (path : string) : string :=
  match open_read fs path with
  | Returned text => text
  | Raised e => sentinel e
  end.

(** The contents compared for a group, once every read has been tried. *)
Definition versions (fs : gmap string file) (paths : list string)
    : list (string * string) :=
  map (fun path => (path, content_value fs path)) paths.

(** What one group adds to the issues. *)
Definition group_issues (fs : gmap string file) (item : string * list string)
    : list issue :=
  if (1 <? length item.2)%nat && (1 <? distinct_contents (versions fs item.2))%nat
  then [Issue item.1 item.2 true]
  else [].

(** ** Environment Auditor *)

Definition SUSPECTS : list string :=
  ["DATABASE_URL"; "API_KEY"; "SECRET"; "DEBUG"; "ENVIRONMENT"].

Definition localhost_msg (suspect : string) : string :=
  suspect +:+ ": Using localhost in production? Bold.".

Definition not_set_msg (suspect : string) : string :=
  suspect +:+ ": Not set (probably fine... probably)".

(** [os.environ.get(name, default)] *)
Definition environ_get (env : gmap string string) (name default : string) : string :=
  match env !! name with
  | Some value => value
  | None => default
  end.

(** The body of the loop over the suspects. *)
Definition audit (env : gmap string string) (missing : list string) (suspect : string)
    : list string :=
  match env !! suspect with
  | Some value =>
      if str_contains "localhost" value
         && str_contains "production" (environ_get env "ENVIRONMENT" "")
      then missing ++ [localhost_msg suspect]
      else missing
  | None => missing ++ [not_set_msg suspect]
  end.

Definition check_env_vars (env : gmap string string) : list string :=
  fold_left (audit env) SUSPECTS [].

(** ** Report Printer *)

(** The line feed inside a printed string. *)
Definition nl : string := String (ascii_of_nat 10) EmptyString.

(** The truth value of a list in a condition: non-empty. *)
Definition truthy {A} (xs : list A) : bool :=
  match xs with
  | [] => false
  | _ :: _ => true
  end.

(** The lines printed for one divergent group. *)
Definition print_issue (i : issue) : list string :=
  ("   • " +:+ issue_file i +:+ " has "
     +:+ pretty (length (issue_paths i)) +:+ " different versions")
  :: map (fun path => "     - " +:+ path) (issue_paths i).

(** [main]: the strings printed, one per call of [print], and the value
    returned, which [sys.exit] turns into the exit status. *)
Definition main (tree : list Path) (fs : gmap string file) (env : gmap string string)
    : outcome (list string * Z) :=
  let out := [nl +:+ "🔍 Config Schizophrenia Diagnosis" +:+ nl;
              "1. Multiple Config Personalities:"] in
  let configs := find_config_files tree in
  issues ← compare_configs fs configs;
  let out :=
    if truthy issues then out ++ concat (map print_issue issues)
    else out ++ ["   ✓ All configs are consistent (unlikely)"] in
  let out := out ++ [nl +:+ "2. Environment Variable Ghosts:"] in
  let env_issues := check_env_vars env in
  let out :=
    if truthy env_issues then out ++ map (fun i => "   • " +:+ i) env_issues
    else out ++ ["   ✓ No obvious env var issues (check again)"] in
  let out := out ++ [nl +:+ "📋 Diagnosis:"] in
  if truthy issues || truthy env_issues then
    mret (out ++ ["   Your configs have multiple personalities.";
                  "   Prescription: Pick one identity and stick with it."], 1%Z)
  else
    mret (out ++ ["   Configs appear stable (for now).";
                  "   Warning: This tool has 99% accuracy. You're probably the 1%."], 0%Z).

(** ** Sample inputs *)

(** Two versions of [config.json], a lone [.env], and files below
    directories that the discoverer leaves out. *)
Definition sample_tree : list Path :=
  [ [".env"];
    ["config.json"];
    ["sub"; "config.json"];
    ["venv"; "lib"; "settings.py"];
    [".github"; "workflows"; "ci.yml"];
    ["node_modules"; "pkg"; "config.json"];
    ["deploy"; "app.yaml"];
    ["deploy"; "old"; "app.yaml"] ].

Definition sample_fs : gmap string file :=
  list_to_map
    [ (".env", Content "DEBUG=1");
      ("config.json", Content "{}");
      ("sub/config.json", Content "{ }");
      ("deploy/app.yaml", Content "a: 1");
      ("deploy/old/app.yaml", Content "a: 1") ].

Definition sample_env : gmap string string :=
  list_to_map
    [ ("DATABASE_URL", "http://localhost:5432");
      ("API_KEY", "k");
      ("ENVIRONMENT", "production") ].

(** ENVIRONMENT alone carries both substrings. *)
Definition sample_env_self : gmap string string :=
  list_to_map
    [ ("DATABASE_URL", "x");
      ("API_KEY", "x");
      ("SECRET", "x");
      ("DEBUG", "x");
      ("ENVIRONMENT", "production-db-at-localhost") ].

(** An unreadable file next to a file whose text is the very sentinel of
    that failure. *)
Definition collision_fs : gmap string file :=
  list_to_map
    [ ("a/config.json", Unreadable "[Errno 13] Permission denied: 'a/config.json'");
      ("b/config.json",
       Content "ERROR: [Errno 13] Permission denied: 'a/config.json'") ].

(** * Properties *)

(** ** The program on the sample inputs *)

Example find_config_files_sample :
  find_config_files sample_tree
  = [ (".env", [".env"]);
      ("config.json", ["config.json"; "sub/config.json"]);
      ("app.yaml", ["deploy/app.yaml"; "deploy/old/app.yaml"]) ].
Proof. reflexivity. Qed.

Example compare_configs_sample :
  compare_configs sample_fs (find_config_files sample_tree)
  = Returned [Issue "config.json" ["config.json"; "sub/config.json"] true].
Proof. vm_compute. reflexivity. Qed.

(** A missing file and an unreadable one in the first group do not keep the
    second group from being compared. *)
Example compare_configs_after_failure :
  compare_configs collision_fs
    [ ("settings.py", ["x/settings.py"; "a/config.json"]);
      ("config.json", ["a/config.json"; "c/config.json"]) ]
  = Returned
      [ Issue "settings.py" ["x/settings.py"; "a/config.json"] true;
        Issue "config.json" ["a/config.json"; "c/config.json"] true ].
Proof. vm_compute. reflexivity. Qed.

Example check_env_vars_sample :
  check_env_vars sample_env
  = [ "DATABASE_URL: Using localhost in production? Bold.";
      "SECRET: Not set (probably fine... probably)";
      "DEBUG: Not set (probably fine... probably)" ].
Proof. vm_compute. reflexivity. Qed.

Example check_env_vars_empty :
  check_env_vars ∅
  = [ "DATABASE_URL: Not set (probably fine... probably)";
      "API_KEY: Not set (probably fine... probably)";
      "SECRET: Not set (probably fine... probably)";
      "DEBUG: Not set (probably fine... probably)";
      "ENVIRONMENT: Not set (probably fine... probably)" ].
Proof. vm_compute. reflexivity. Qed.

Example main_sample_status :
  snd <$> main sample_tree sample_fs sample_env = Returned 1%Z.
Proof. vm_compute. reflexivity. Qed.

Example main_clean_status :
  snd <$> main [] ∅ sample_env_self = Returned 1%Z
  ∧ snd <$> main [] ∅ (<["ENVIRONMENT" := "staging"]> sample_env_self)
    = Returned 0%Z.
Proof. split; vm_compute; reflexivity. Qed.

(** ** Strings *)

Section strings.
Implicit Types s t u : string.

Lemma append_cons a s t : String a s +:+ t = String a (s +:+ t).
Proof. reflexivity. Qed.

Lemma append_nil_l s : "" +:+ s = s.
Proof. reflexivity. Qed.

Lemma append_nil_r s : s +:+ "" = s.
Proof. induction s as [|a s IH]; [done|]. by rewrite append_cons, IH. Qed.

Lemma append_assoc s t u : (s +:+ t) +:+ u = s +:+ t +:+ u.
Proof. induction s as [|a s IH]; [done|]. by rewrite !append_cons, IH. Qed.

Lemma length_append s t :
  String.length (s +:+ t) = (String.length s + String.length t)%nat.
Proof. induction s as [|a s IH]; [done|]. rewrite append_cons. simpl. by rewrite IH. Qed.

(** Two concatenations whose tails have the same length agree part by
    part. *)
Lemma append_inj_len s s' t t' :
  String.length t = String.length t' →
  s +:+ t = s' +:+ t' → s = s' ∧ t = t'.
Proof.
  intros Hlen. revert s'. induction s as [|a s IH]; intros [|a' s'] H.
  - done.
  - apply (f_equal String.length) in H.
    rewrite append_cons, append_nil_l in H. simpl in H.
    rewrite length_append in H. lia.
  - apply (f_equal String.length) in H.
    rewrite append_cons, append_nil_l in H. simpl in H.
    rewrite length_append in H. lia.
  - rewrite !append_cons in H. injection H as -> H.
    destruct (IH _ H) as [-> ->]. done.
Qed.

Lemma append_inj_r s s' t : s +:+ t = s' +:+ t → s = s'.
Proof. intros H. by apply (append_inj_len s s' t t). Qed.

Lemma prefix_spec s t : String.prefix s t = true ↔ ∃ u, t = s +:+ u.
Proof.
  revert t. induction s as [|a s IH]; intros t.
  - split; [|by destruct t]. intros _. by exists t.
  - destruct t as [|b t]; simpl.
    + split; [done|]. by intros [u Hu].
    + destruct (ascii_dec a b) as [->|Hne].
      * rewrite IH. split; intros [u Hu]; exists u.
        -- by rewrite append_cons, Hu.
        -- rewrite append_cons in Hu. by injection Hu.
      * split; [done|]. intros [u Hu]. rewrite append_cons in Hu. congruence.
Qed.

Lemma str_contains_nil needle :
  str_contains needle "" = String.prefix needle "".
Proof. cbv [str_contains]. by destruct (String.prefix needle ""). Qed.

Lemma str_contains_cons needle a hay :
  str_contains needle (String a hay) =
  if String.prefix needle (String a hay) then true else str_contains needle hay.
Proof. reflexivity. Qed.

(** [needle in hay] holds exactly when [hay] is [needle] with something
    before and something after. *)
Lemma str_contains_spec needle hay :
  str_contains needle hay = true ↔ ∃ s t, hay = s +:+ needle +:+ t.
Proof.
  induction hay as [|a hay IH].
  - rewrite str_contains_nil. destruct (String.prefix needle "") eqn:Hp.
    + split; [|done]. intros _. apply prefix_spec in Hp as [u Hu]. exists "", u. exact Hu.
    + split; [done|]. intros (s & t & H). destruct s as [|b s]; [|done].
      assert (String.prefix needle "" = true); [|congruence].
      apply prefix_spec. exists t. exact H.
  - rewrite str_contains_cons.
    destruct (String.prefix needle (String a hay)) eqn:Hp.
    + split; [|done]. intros _. apply prefix_spec in Hp as [u Hu]. exists "", u. exact Hu.
    + rewrite IH. split.
      * intros (s & t & ->). by exists (String a s), t.
      * intros (s & t & H). destruct s as [|b s].
        -- assert (String.prefix needle (String a hay) = true); [|congruence].
           apply prefix_spec. exists t. exact H.
        -- rewrite append_cons in H. injection H as _ ->. by exists s, t.
Qed.

Lemma str_contains_app needle s t :
  str_contains needle (s +:+ needle +:+ t) = true.
Proof. apply str_contains_spec. by exists s, t. Qed.
End strings.

(** ** Environment Auditor *)

Lemma localhost_msg_inj s s' : localhost_msg s = localhost_msg s' → s = s'.
Proof. apply append_inj_r. Qed.

Lemma not_set_msg_inj s s' : not_set_msg s = not_set_msg s' → s = s'.
Proof. apply append_inj_r. Qed.

(** The two kinds of message end differently, whatever the names are. *)
Lemma localhost_msg_not_set s s' : localhost_msg s ≠ not_set_msg s'.
Proof.
  unfold localhost_msg, not_set_msg. intros H.
  change (s +:+ ": Using localhost in production? Bold" +:+ "." =
          s' +:+ ": Not set (probably fine... probably" +:+ ")") in H.
  rewrite <- !append_assoc in H.
  by apply append_inj_len in H as [_ ?].
Qed.

Section env_auditor.
Variable env : gmap string string.

Lemma audit_app missing suspect :
  audit env missing suspect = missing ++ audit env [] suspect.
Proof.
  unfold audit. destruct (env !! suspect) as [value|]; [|done].
  destruct (_ && _); [done|]. by rewrite app_nil_r.
Qed.

Lemma fold_audit suspects missing :
  fold_left (audit env) suspects missing
  = missing ++ flat_map (audit env []) suspects.
Proof.
  revert missing. induction suspects as [|x suspects IH]; intros missing; simpl.
  - by rewrite app_nil_r.
  - by rewrite IH, audit_app, <- app_assoc.
Qed.

(** The result lists what each suspect contributes, in the order of the
    suspect list. *)
Lemma check_env_vars_flat :
  check_env_vars env = flat_map (audit env []) SUSPECTS.
Proof. unfold check_env_vars. by rewrite fold_audit. Qed.

Lemma in_check_env_vars msg :
  In msg (check_env_vars env) ↔ ∃ s, In s SUSPECTS ∧ In msg (audit env [] s).
Proof. rewrite check_env_vars_flat. apply in_flat_map. Qed.

(** A suspect contributes at most one message. *)
Lemma audit_cases suspect :
  match env !! suspect with
  | Some value =>
      if str_contains "localhost" value
         && str_contains "production" (environ_get env "ENVIRONMENT" "")
      then audit env [] suspect = [localhost_msg suspect]
      else audit env [] suspect = []
  | None => audit env [] suspect = [not_set_msg suspect]
  end.
Proof.
  unfold audit. destruct (env !! suspect) as [value|]; [|done].
  by destruct (_ && _).
Qed.

(** C2: a suspect that is set gets the localhost-in-production message
    exactly when its own value contains "localhost" and the value of
    ENVIRONMENT (the empty string when unset) contains "production"; this
    holds for each of the five suspects alike, and the messages come out
    in the order DATABASE_URL, API_KEY, SECRET, DEBUG, ENVIRONMENT. *)
Theorem localhost_issue_iff suspect value :
  In suspect SUSPECTS →
  env !! suspect = Some value →
  check_env_vars env
    = flat_map (audit env [])
        ["DATABASE_URL"; "API_KEY"; "SECRET"; "DEBUG"; "ENVIRONMENT"]
  ∧ (In (localhost_msg suspect) (check_env_vars env)
     ↔ str_contains "localhost" value = true
       ∧ str_contains "production" (environ_get env "ENVIRONMENT" "") = true).
Proof.
  intros Hin Hset. split; [apply check_env_vars_flat|].
  rewrite in_check_env_vars. split.
  - intros (s & _ & Hmsg). pose proof (audit_cases s) as Hs.
    destruct (env !! s) as [v|] eqn:Hv.
    + destruct (_ && _) eqn:Hboth; rewrite Hs in Hmsg; [|done].
      destruct Hmsg as [Hmsg|[]]. apply localhost_msg_inj in Hmsg as ->.
      rewrite Hset in Hv. injection Hv as <-.
      by apply andb_true_iff in Hboth.
    + rewrite Hs in Hmsg. destruct Hmsg as [Hmsg|[]].
      symmetry in Hmsg. by apply localhost_msg_not_set in Hmsg.
  - intros [Hlocal Hprod]. exists suspect. split; [done|].
    pose proof (audit_cases suspect) as Hs.
    rewrite Hset, Hlocal, Hprod in Hs. rewrite Hs. by left.
Qed.

(** C8: for each of the five suspects, an unset variable has its "not set"
    message in the result, and a set variable has none. *)
Theorem not_set_reported suspect :
  In suspect SUSPECTS →
  (env !! suspect = None → In (not_set_msg suspect) (check_env_vars env))
  ∧ (∀ value, env !! suspect = Some value →
       ¬ In (not_set_msg suspect) (check_env_vars env)).
Proof.
  intros Hin. split.
  - intros Hunset. apply in_check_env_vars. exists suspect. split; [done|].
    pose proof (audit_cases suspect) as Hs. rewrite Hunset in Hs.
    rewrite Hs. by left.
  - intros value Hset (s & _ & Hmsg)%in_check_env_vars.
    pose proof (audit_cases s) as Hs.
    destruct (env !! s) as [v|] eqn:Hv.
    + destruct (_ && _); rewrite Hs in Hmsg; [|done].
      destruct Hmsg as [Hmsg|[]]. by apply localhost_msg_not_set in Hmsg.
    + rewrite Hs in Hmsg. destruct Hmsg as [Hmsg|[]].
      apply not_set_msg_inj in Hmsg as ->. congruence.
Qed.

(** C9: ENVIRONMENT is audited like the other suspects. When its value
    contains both "localhost" and "production", the result has the
    localhost-in-production message naming ENVIRONMENT; when moreover the
    other four suspects are set to values without "localhost", that message
    is the whole result. *)
Theorem environment_checks_itself value :
  env !! "ENVIRONMENT" = Some value →
  str_contains "localhost" value = true →
  str_contains "production" value = true →
  In "ENVIRONMENT: Using localhost in production? Bold." (check_env_vars env)
  ∧ ((∀ s, In s ["DATABASE_URL"; "API_KEY"; "SECRET"; "DEBUG"] →
        ∃ v, env !! s = Some v ∧ str_contains "localhost" v = false) →
     check_env_vars env
       = ["ENVIRONMENT: Using localhost in production? Bold."]).
Proof.
  intros Hset Hlocal Hprod.
  assert (audit env [] "ENVIRONMENT" = [localhost_msg "ENVIRONMENT"]) as Hself.
  { pose proof (audit_cases "ENVIRONMENT") as Hs.
    unfold environ_get in Hs. by rewrite Hset, Hlocal, Hprod in Hs. }
  split.
  - apply in_check_env_vars. exists "ENVIRONMENT". split.
    + unfold SUSPECTS. simpl. tauto.
    + rewrite Hself. by left.
  - intros Hclean.
    assert (∀ s, In s ["DATABASE_URL"; "API_KEY"; "SECRET"; "DEBUG"] →
                 audit env [] s = []) as Hnone.
    { intros s Hs. destruct (Hclean s Hs) as (v & Hv & Hno).
      pose proof (audit_cases s) as Hc. by rewrite Hv, Hno in Hc. }
    rewrite check_env_vars_flat. unfold SUSPECTS. simpl.
    rewrite !Hnone by (simpl; tauto). simpl. by rewrite Hself.
Qed.
End env_auditor.

Lemma localhost_issue_iff_witness :
  In (localhost_msg "DATABASE_URL") (check_env_vars sample_env).
Proof.
  apply (localhost_issue_iff sample_env "DATABASE_URL" "http://localhost:5432");
    [simpl; tauto | reflexivity | split; reflexivity].
Defined.

Lemma not_set_reported_witness :
  In (not_set_msg "SECRET") (check_env_vars sample_env)
  ∧ ¬ In (not_set_msg "API_KEY") (check_env_vars sample_env).
Proof.
  split.
  - apply (not_set_reported sample_env "SECRET"); [simpl; tauto | reflexivity].
  - apply (proj2 (not_set_reported sample_env "API_KEY" ltac:(simpl; tauto)) "k").
    reflexivity.
Defined.

Lemma environment_checks_itself_witness :
  check_env_vars sample_env_self
  = ["ENVIRONMENT: Using localhost in production? Bold."].
Proof.
  apply (environment_checks_itself sample_env_self "production-db-at-localhost");
    [reflexivity | reflexivity | reflexivity |].
  intros s Hs. exists "x". simpl in Hs.
  destruct Hs as [<-|[<-|[<-|[<-|[]]]]]; split; reflexivity.
Defined.

(** ** Config Comparator *)

(** A set has more than one element exactly when it has two different
    ones. *)
Lemma size_gt_1_iff (X : gset string) :
  (1 < size X)%nat ↔ ∃ x y, x ∈ X ∧ y ∈ X ∧ x ≠ y.
Proof.
  split.
  - intros Hsize. destruct (size_pos_elem_of X) as [x Hx]; [lia|].
    destruct (size_pos_elem_of (X ∖ {[x]})) as [y Hy].
    { rewrite size_difference, size_singleton; [lia|].
      by intros z ->%elem_of_singleton. }
    apply elem_of_difference in Hy as [Hy Hne].
    rewrite elem_of_singleton in Hne. exists x, y. auto.
  - intros (x & y & Hx & Hy & Hne).
    assert (({[x]} ∪ {[y]} : gset string) ⊆ X) as Hsub.
    { intros z [->%elem_of_singleton| ->%elem_of_singleton]%elem_of_union; done. }
    apply subseteq_size in Hsub.
    rewrite size_union, !size_singleton in Hsub; [lia|].
    intros z ->%elem_of_singleton ->%elem_of_singleton. done.
Qed.

Section comparator.
Variable fs : gmap string file.

(** One pass of the reading loop never raises: a failed read is replaced
    by its sentinel. *)
Lemma read_version_returns contents path :
  read_version fs contents path
  = Returned (contents ++ [(path, content_value fs path)]).
Proof.
  unfold read_version, content_value.
  by destruct (open_read fs path) as [text|msg].
Qed.

Lemma read_loop paths contents :
  for_in paths (read_version fs) contents
  = Returned (contents ++ versions fs paths).
Proof.
  revert contents. induction paths as [|path paths IH]; intros contents.
  - simpl. by rewrite app_nil_r.
  - simpl. rewrite read_version_returns. simpl.
    rewrite IH. by rewrite <- app_assoc.
Qed.

Lemma versions_contents paths :
  (versions fs paths).*2 = map (content_value fs) paths.
Proof. unfold versions. induction paths; simpl; by f_equal. Qed.

(** The test [len(set(...)) > 1] holds exactly when two paths of the group
    have different content values. *)
Lemma distinct_contents_gt_1 paths :
  (1 <? distinct_contents (versions fs paths))%nat = true
  ↔ ∃ p q, In p paths ∧ In q paths ∧ content_value fs p ≠ content_value fs q.
Proof.
  rewrite Nat.ltb_lt. unfold distinct_contents.
  rewrite size_gt_1_iff, versions_contents. split.
  - intros (x & y & Hx & Hy & Hne).
    apply elem_of_list_to_set, list_elem_of_In, in_map_iff in Hx as (p & <- & Hp).
    apply elem_of_list_to_set, list_elem_of_In, in_map_iff in Hy as (q & <- & Hq).
    by exists p, q.
  - intros (p & q & Hp & Hq & Hne).
    exists (content_value fs p), (content_value fs q).
    rewrite !elem_of_list_to_set, !list_elem_of_In. auto using in_map.
Qed.

Lemma compare_group_returns issues item :
  compare_group fs issues item = Returned (issues ++ group_issues fs item).
Proof.
  destruct item as [filename paths]. unfold compare_group, group_issues. simpl.
  destruct (1 <? length paths)%nat; simpl; [|by rewrite app_nil_r].
  rewrite read_loop. simpl.
  destruct (1 <? distinct_contents _)%nat; simpl; [done|by rewrite app_nil_r].
Qed.

Lemma compare_loop configs issues :
  for_in configs (compare_group fs) issues
  = Returned (issues ++ flat_map (group_issues fs) configs).
Proof.
  revert issues. induction configs as [|item configs IH]; intros issues.
  - simpl. by rewrite app_nil_r.
  - simpl. rewrite compare_group_returns. simpl.
    rewrite IH. by rewrite <- app_assoc.
Qed.

(** The comparison always returns, with what each group adds, in the
    order of the groups. *)
Lemma compare_configs_returns configs :
  compare_configs fs configs = Returned (flat_map (group_issues fs) configs).
Proof. unfold compare_configs. by rewrite compare_loop. Qed.

Lemma group_issues_file item i :
  In i (group_issues fs item) → i = Issue item.1 item.2 true.
Proof.
  unfold group_issues. destruct (_ && _); [|done]. by intros [<-|[]].
Qed.

(** The issues about one name are those of the one group with that name. *)
Lemma issues_of_name configs filename paths :
  NoDup (configs.*1) →
  In (filename, paths) configs →
  List.filter (fun i => String.eqb (issue_file i) filename)
    (flat_map (group_issues fs) configs)
  = group_issues fs (filename, paths).
Proof.
  assert (∀ configs, ¬ In filename (configs.*1) →
    List.filter (fun i => String.eqb (issue_file i) filename)
      (flat_map (group_issues fs) configs) = []) as Hother.
  { clear. induction configs as [|[k ps] configs IH]; intros Hk; [done|].
    simpl in *. rewrite List.filter_app, IH by tauto.
    rewrite app_nil_r. unfold group_issues. simpl.
    destruct (_ && _); [|done]. simpl.
    destruct (String.eqb_spec k filename); [|done]. tauto. }
  induction configs as [|[k ps] configs IH]; intros Hnd Hin; [done|].
  simpl in *. apply NoDup_cons in Hnd as [Hk Hnd].
  rewrite List.filter_app. destruct Hin as [[= -> ->]|Hin].
  - rewrite Hother by (by rewrite <- list_elem_of_In).
    rewrite app_nil_r. unfold group_issues. simpl.
    destruct (_ && _); [|done]. simpl. by rewrite String.eqb_refl.
  - rewrite IH by done.
    assert (k ≠ filename) as Hne.
    { intros ->. apply Hk, list_elem_of_In, in_map_iff.
      by exists (filename, paths). }
    unfold group_issues at 1. simpl.
    destruct (_ && _); [|done]. simpl.
    by destruct (String.eqb_spec k filename).
Qed.

Lemma no_issue_of_name issues filename :
  List.filter (fun i => String.eqb (issue_file i) filename) issues = [] →
  ∀ i, In i issues → issue_file i ≠ filename.
Proof.
  intros Hnone i Hi Hfile.
  assert (In i (List.filter (fun i => String.eqb (issue_file i) filename) issues)).
  { apply List.filter_In. split; [done|]. by apply String.eqb_eq. }
  by rewrite Hnone in *.
Qed.
End comparator.

(** C7: a path whose read fails gets the value "ERROR: " followed by the
    message as its content, the reading loop goes on to the remaining paths,
    and [compare_configs] returns for every file system and every dictionary;
    its result has the issue of every group of two or more paths with two
    different content values, wherever in the dictionary the failed reads
    are. *)
Theorem read_failure_recovered (fs : gmap string file) (configs : ConfigGroups) :
  (∀ contents path msg,
     open_read fs path = Raised msg →
     read_version fs contents path
     = Returned (contents ++ [(path, "ERROR: " +:+ msg)]))
  ∧ (∀ paths, ∃ contents,
       for_in paths (read_version fs) [] = Returned contents
       ∧ contents.*1 = paths
       ∧ ∀ path msg, In path paths → open_read fs path = Raised msg →
           In (path, "ERROR: " +:+ msg) contents)
  ∧ ∃ issues,
      compare_configs fs configs = Returned issues
      ∧ ∀ filename paths,
          In (filename, paths) configs →
          (1 < length paths)%nat →
          (∃ p q, In p paths ∧ In q paths
                  ∧ content_value fs p ≠ content_value fs q) →
          In (Issue filename paths true) issues.
Proof.
  split; [|split].
  - intros contents path msg Hfail. unfold read_version. by rewrite Hfail.
  - intros paths. exists (versions fs paths). split; [|split].
    + by rewrite read_loop.
    + unfold versions. induction paths; simpl; by f_equal.
    + intros path msg Hin Hfail. unfold versions. apply in_map_iff.
      exists path. split; [|done]. unfold content_value. by rewrite Hfail.
  - exists (flat_map (group_issues fs) configs).
    split; [apply compare_configs_returns|].
    intros filename paths Hin Hlen Hdiff. apply in_flat_map.
    exists (filename, paths). split; [done|].
    unfold group_issues. simpl.
    apply Nat.ltb_lt in Hlen. apply distinct_contents_gt_1 in Hdiff.
    rewrite Hlen, Hdiff. by left.
Qed.

(** C6: a name with a single path has no issue in the result, whatever the
    file holds and whether or not it can be read. *)
Theorem single_path_never_flagged
    (fs : gmap string file) (configs : ConfigGroups) (filename path : string) :
  NoDup (configs.*1) →
  In (filename, [path]) configs →
  ∃ issues,
    compare_configs fs configs = Returned issues
    ∧ ∀ i, In i issues → issue_file i ≠ filename.
Proof.
  intros Hkeys Hin. exists (flat_map (group_issues fs) configs).
  split; [apply compare_configs_returns|].
  apply no_issue_of_name. by rewrite (issues_of_name fs configs filename [path]).
Qed.

(** C4: for a name with two or more paths, equal content values throughout
    give no issue for that name, and two different content values give
    exactly one issue for it, with the name, all of its paths and the
    marker [True]. *)
Theorem group_divergence
    (fs : gmap string file) (configs : ConfigGroups)
    (filename : string) (paths : list string) :
  NoDup (configs.*1) →
  In (filename, paths) configs →
  (2 ≤ length paths)%nat →
  ∃ issues,
    compare_configs fs configs = Returned issues
    ∧ ((∀ p q, In p paths → In q paths →
               content_value fs p = content_value fs q) →
       ∀ i, In i issues → issue_file i ≠ filename)
    ∧ ((∃ p q, In p paths ∧ In q paths
               ∧ content_value fs p ≠ content_value fs q) →
       List.filter (fun i => String.eqb (issue_file i) filename) issues
       = [Issue filename paths true]).
Proof.
  intros Hkeys Hin Hlen. exists (flat_map (group_issues fs) configs).
  split; [apply compare_configs_returns|].
  pose proof (issues_of_name fs configs filename paths Hkeys Hin) as Hname.
  split.
  - intros Hsame. apply no_issue_of_name. rewrite Hname.
    unfold group_issues. simpl.
    destruct (1 <? distinct_contents _)%nat eqn:Hdiff;
      [|by rewrite andb_false_r].
    apply distinct_contents_gt_1 in Hdiff as (p & q & Hp & Hq & Hne).
    destruct Hne. by apply Hsame.
  - intros Hdiff. rewrite Hname. unfold group_issues. simpl.
    apply distinct_contents_gt_1 in Hdiff. rewrite Hdiff.
    assert ((1 <? length paths)%nat = true) as -> by (apply Nat.ltb_lt; lia).
    done.
Qed.

(** C5, the counterexample: the file b/config.json holds, as its real text,
    the sentinel of the failed read of a/config.json; the two content values
    are equal and the group is not reported. *)
Lemma sentinel_collides :
  ∃ msg text,
    open_read collision_fs "a/config.json" = Raised msg
    ∧ open_read collision_fs "b/config.json" = Returned text
    ∧ sentinel msg = text
    ∧ compare_configs collision_fs
        [("config.json", ["a/config.json"; "b/config.json"])]
      = Returned [].
Proof.
  exists "[Errno 13] Permission denied: 'a/config.json'",
         "ERROR: [Errno 13] Permission denied: 'a/config.json'".
  repeat split; vm_compute; reflexivity.
Qed.

(** C5, as the code has it: the content value of a failed read is "ERROR: "
    followed by the message; it equals the real text of another file only
    when that text is itself "ERROR: " followed by the same message, so it
    differs from every text that does not start with "ERROR: "; and the
    values of two failed reads are equal exactly when the messages are. *)
Theorem sentinel_distinct (fs : gmap string file) (p q msg : string) :
  open_read fs p = Raised msg →
  content_value fs p = "ERROR: " +:+ msg
  ∧ (∀ text, open_read fs q = Returned text →
       (content_value fs p = content_value fs q ↔ text = "ERROR: " +:+ msg))
  ∧ (∀ text, open_read fs q = Returned text →
       String.prefix "ERROR: " text = false →
       content_value fs p ≠ content_value fs q)
  ∧ (∀ msg', open_read fs q = Raised msg' →
       (content_value fs p = content_value fs q ↔ msg = msg')).
Proof.
  intros Hp. unfold content_value. rewrite Hp. unfold sentinel.
  split; [done|]. split; [|split].
  - intros text ->. split; congruence.
  - intros text -> Hprefix Heq.
    assert (String.prefix "ERROR: " text = true); [|congruence].
    apply prefix_spec. by exists msg.
  - intros msg' ->. split; [|congruence]. apply (inj (String.append _)).
Qed.

Lemma single_path_never_flagged_witness :
  ∃ issues,
    compare_configs sample_fs (find_config_files sample_tree) = Returned issues
    ∧ ∀ i, In i issues → issue_file i ≠ ".env".
Proof.
  apply (single_path_never_flagged sample_fs (find_config_files sample_tree)
           ".env" ".env").
  - apply (bool_decide_unpack _). vm_compute. reflexivity.
  - vm_compute. tauto.
Defined.

Lemma group_divergence_witness :
  ∃ issues,
    compare_configs sample_fs (find_config_files sample_tree) = Returned issues
    ∧ List.filter (fun i => String.eqb (issue_file i) "config.json") issues
      = [Issue "config.json" ["config.json"; "sub/config.json"] true].
Proof.
  destruct (group_divergence sample_fs (find_config_files sample_tree)
              "config.json" ["config.json"; "sub/config.json"])
    as (issues & Hret & _ & Hdiff).
  - apply (bool_decide_unpack _). vm_compute. reflexivity.
  - vm_compute. tauto.
  - simpl. lia.
  - exists issues. split; [exact Hret|]. apply Hdiff.
    exists "config.json", "sub/config.json".
    split; [simpl; tauto|]. split; [simpl; tauto|].
    vm_compute. discriminate.
Defined.

Lemma sentinel_distinct_witness :
  content_value collision_fs "a/config.json"
  = "ERROR: [Errno 13] Permission denied: 'a/config.json'".
Proof.
  refine (proj1 (sentinel_distinct collision_fs "a/config.json" "b/config.json"
                   "[Errno 13] Permission denied: 'a/config.json'" _)).
  reflexivity.
Defined.

(** ** Report Printer *)

Lemma truthy_false {A} (xs : list A) : truthy xs = false ↔ xs = [].
Proof. by destruct xs. Qed.

(** C3: [main] always returns; the value it returns is 0 when the list of
    divergent groups and the list of environment issues are both empty, and
    1 when either has an element; it is never anything else. *)
Theorem main_exit_status
    (tree : list Path) (fs : gmap string file) (env : gmap string string) :
  ∃ issues out code,
    compare_configs fs (find_config_files tree) = Returned issues
    ∧ main tree fs env = Returned (out, code)
    ∧ (issues = [] ∧ check_env_vars env = [] → code = 0%Z)
    ∧ (issues ≠ [] ∨ check_env_vars env ≠ [] → code = 1%Z)
    ∧ (code = 0%Z ∨ code = 1%Z).
Proof.
  exists (flat_map (group_issues fs) (find_config_files tree)).
  unfold main. rewrite compare_configs_returns. simpl.
  destruct (truthy (flat_map _ _) || truthy (check_env_vars env)) eqn:Hany;
    eexists _, _; (split; [reflexivity|]); (split; [reflexivity|]).
  - split; [|by auto]. intros [Hi He].
    rewrite Hi, He in Hany. done.
  - apply orb_false_iff in Hany as [Hi%truthy_false He%truthy_false].
    split; [done|]. split; [|by auto]. intros [?|?]; done.
Qed.

(** ** Paths and patterns *)

Lemma has_char_cons c d s :
  has_char c (String d s) = if Ascii.eqb c d then true else has_char c s.
Proof. reflexivity. Qed.

Lemma has_char_append c s t :
  has_char c (s +:+ t) = has_char c s || has_char c t.
Proof.
  induction s as [|a s IH]; [done|]. rewrite append_cons. simpl.
  by destruct (Ascii.eqb c a).
Qed.

(** Cutting at the first separator is unambiguous. *)
Lemma split_at_char c s s' t t' :
  has_char c s = false → has_char c s' = false →
  s +:+ String c t = s' +:+ String c t' → s = s' ∧ t = t'.
Proof.
  revert s'. induction s as [|a s IH]; intros [|a' s'] Hs Hs' H.
  - rewrite !append_nil_l in H. by injection H.
  - rewrite append_nil_l, append_cons in H. injection H as <- _.
    simpl in Hs'. by rewrite Ascii.eqb_refl in Hs'.
  - rewrite append_nil_l, append_cons in H. injection H as -> _.
    simpl in Hs. by rewrite Ascii.eqb_refl in Hs.
  - rewrite !append_cons in H. injection H as -> H. simpl in Hs, Hs'.
    destruct (Ascii.eqb c a'); [done|].
    destruct (IH s' Hs Hs' H) as [-> ->]. done.
Qed.

Lemma str_join_cons sep x y rest :
  str_join sep (x :: y :: rest) = x +:+ sep +:+ str_join sep (y :: rest).
Proof. reflexivity. Qed.

(** Paths without a separator inside a component are told apart by their
    strings. *)
Lemma str_join_inj (path path' : list string) :
  path ≠ [] → path' ≠ [] →
  Forall (fun part => has_char "/" part = false) path →
  Forall (fun part => has_char "/" part = false) path' →
  str_join "/" path = str_join "/" path' → path = path'.
Proof.
  revert path'. induction path as [|x rest IH]; intros [|x' rest'] Hne Hne' Hwf Hwf' H;
    try done.
  apply Forall_cons in Hwf as [Hx Hrest]. apply Forall_cons in Hwf' as [Hx' Hrest'].
  destruct rest as [|y rest], rest' as [|y' rest'].
  - simpl in H. by subst.
  - rewrite str_join_cons in H. simpl in H. subst x.
    rewrite has_char_append in Hx. change ("/" +:+ ?s) with (String "/" s) in Hx.
    simpl in Hx. by rewrite orb_true_r in Hx.
  - rewrite str_join_cons in H. simpl in H. subst x'.
    rewrite has_char_append in Hx'. simpl in Hx'. by rewrite orb_true_r in Hx'.
  - rewrite !str_join_cons in H.
    apply (split_at_char "/") in H as [-> H]; [|done..].
    f_equal. by apply IH.
Qed.

Lemma path_str_inj (path path' : Path) :
  wf_path path → wf_path path' → path_str path = path_str path' → path = path'.
Proof.
  intros [Hne Hwf] [Hne' Hwf'] H. apply str_join_inj; try done.
  by destruct path, path'.
Qed.

(** A component of a path is a substring of the path's string. *)
Lemma component_in_path_str (path : Path) (part : string) :
  In part path → str_contains part (path_str path) = true.
Proof.
  intros Hin. assert (path ≠ []) as Hne by (by destruct path).
  assert (path_str path = str_join "/" path) as -> by (by destruct path).
  clear Hne. apply str_contains_spec.
  induction path as [|x rest IH]; [done|]. destruct rest as [|y rest].
  - destruct Hin as [->|[]]. exists "", "". by rewrite append_nil_r.
  - rewrite str_join_cons. destruct Hin as [->|Hin].
    + by exists "", ("/" +:+ str_join "/" (y :: rest)).
    + destruct (IH Hin) as (s & t & ->).
      exists (x +:+ "/" +:+ s), t. by rewrite !append_assoc.
Qed.

Lemma fnmatch_star_nil pat : fnmatch (String "*" pat) "" = fnmatch pat "".
Proof. simpl. by destruct (fnmatch pat ""). Qed.

Lemma fnmatch_star_cons pat a name :
  fnmatch (String "*" pat) (String a name)
  = if fnmatch pat (String a name) then true else fnmatch (String "*" pat) name.
Proof. reflexivity. Qed.

Lemma fnmatch_char_cons c pat a name :
  Ascii.eqb c "*" = false → Ascii.eqb c "?" = false →
  fnmatch (String c pat) (String a name)
  = if Ascii.eqb c a then fnmatch pat name else false.
Proof. intros Hstar Hany. simpl. by rewrite Hstar, Hany. Qed.

(** A pattern without [*] and [?] matches itself only. *)
Lemma fnmatch_literal lit name :
  is_literal lit = true → fnmatch lit name = true → name = lit.
Proof.
  unfold is_literal. revert name.
  induction lit as [|c lit IH]; intros name Hlit Hmatch.
  - by destruct name.
  - rewrite !has_char_cons in Hlit.
    rewrite (Ascii.eqb_sym "*" c), (Ascii.eqb_sym "?" c) in Hlit.
    destruct (Ascii.eqb c "*") eqn:Hstar; [done|].
    destruct (Ascii.eqb c "?") eqn:Hany; [by rewrite andb_false_r in Hlit|].
    destruct name as [|a name]; [by simpl in Hmatch; rewrite Hstar, Hany in Hmatch|].
    rewrite fnmatch_char_cons in Hmatch by done.
    destruct (Ascii.eqb_spec c a) as [->|]; [|done].
    f_equal. by apply IH.
Qed.

(** A name matched by a pattern that ends in literal characters ends in
    those characters. *)
Lemma fnmatch_suffix pre lit name :
  is_literal lit = true →
  fnmatch (pre +:+ lit) name = true → ∃ u, name = u +:+ lit.
Proof.
  intros Hlit. revert name. induction pre as [|c pre IH]; intros name Hmatch.
  - rewrite append_nil_l in Hmatch. exists "".
    by apply fnmatch_literal.
  - rewrite append_cons in Hmatch.
    destruct (Ascii.eqb_spec c "*") as [->|Hstar].
    { induction name as [|a name IHname].
      - rewrite fnmatch_star_nil in Hmatch. by apply IH.
      - rewrite fnmatch_star_cons in Hmatch.
        destruct (fnmatch (pre +:+ lit) (String a name)) eqn:Hhere; [by apply IH|].
        destruct (IHname Hmatch) as [u ->]. by exists (String a u). }
    apply Ascii.eqb_neq in Hstar.
    destruct name as [|a name].
    { simpl in Hmatch. rewrite Hstar in Hmatch. by destruct (Ascii.eqb c "?"). }
    destruct (Ascii.eqb c "?") eqn:Hany.
    + simpl in Hmatch. rewrite Hstar, Hany in Hmatch.
      destruct (IH _ Hmatch) as [u ->]. by exists (String a u).
    + rewrite fnmatch_char_cons in Hmatch by done.
      destruct (Ascii.eqb c a); [|done].
      destruct (IH _ Hmatch) as [u ->]. by exists (String a u).
Qed.

(** Every name matched by one of the five patterns ends in the last three
    characters of that pattern. *)
Lemma config_pattern_tail pattern name :
  In pattern CONFIG_PATTERNS → fnmatch pattern name = true →
  ∃ u, name = u +:+ tail3 pattern.
Proof.
  intros Hin Hmatch. simpl in Hin.
  destruct Hin as [<-|[<-|[<-|[<-|[<-|[]]]]]].
  - by apply (fnmatch_suffix "." "env").
  - by apply (fnmatch_suffix "config*.j" "son").
  - by apply (fnmatch_suffix "settings*" ".py").
  - by apply (fnmatch_suffix "*.y" "aml").
  - by apply (fnmatch_suffix "*." "yml").
Qed.

(** No name is matched by two of the five patterns. *)
Lemma config_patterns_disjoint pattern pattern' name :
  In pattern CONFIG_PATTERNS → In pattern' CONFIG_PATTERNS →
  fnmatch pattern name = true → fnmatch pattern' name = true →
  pattern = pattern'.
Proof.
  intros Hin Hin' Hmatch Hmatch'.
  destruct (config_pattern_tail _ _ Hin Hmatch) as [u Hu].
  destruct (config_pattern_tail _ _ Hin' Hmatch') as [u' Hu'].
  rewrite Hu in Hu'. clear Hmatch Hmatch' Hu.
  simpl in Hin, Hin'.
  destruct Hin as [<-|[<-|[<-|[<-|[<-|[]]]]]];
    destruct Hin' as [<-|[<-|[<-|[<-|[<-|[]]]]]];
    try reflexivity;
    apply append_inj_len in Hu' as [_ Htail]; by try discriminate Htail.
Qed.

(** ** File Discoverer *)

(** The guard is a substring test on the path string. *)
Lemma skipped_iff (path : Path) :
  skipped path = true
  ↔ ∃ part, In part EXCLUDED ∧ str_contains part (path_str path) = true.
Proof. apply existsb_exists. Qed.

(** A path with a component among the excluded names is skipped. *)
Lemma skipped_of_component (path : Path) (part : string) :
  In part path → In part EXCLUDED → skipped path = true.
Proof.
  intros Hpath Hexcl. unfold skipped. apply existsb_exists.
  exists part. split; [done|]. by apply component_in_path_str.
Qed.

Lemma dict_get_append configs key value k :
  dict_get (dict_append configs key value) k
  = if String.eqb key k then dict_get configs key ++ [value]
    else dict_get configs k.
Proof.
  induction configs as [|[k0 vs] configs IH]; simpl.
  - by destruct (String.eqb key k).
  - destruct (String.eqb_spec k0 key) as [->|Hne]; simpl.
    + by destruct (String.eqb_spec key k).
    + rewrite IH. destruct (String.eqb_spec k0 k) as [->|]; [|done].
      by destruct (String.eqb_spec key k).
Qed.

Lemma dict_append_keys configs key value k :
  In k (dict_append configs key value).*1 ↔ k = key ∨ In k configs.*1.
Proof.
  induction configs as [|[k0 vs] configs IH]; simpl; [intuition congruence|].
  destruct (String.eqb_spec k0 key) as [->|Hne]; simpl; [intuition congruence|].
  rewrite IH. tauto.
Qed.

Lemma dict_append_NoDup configs key value :
  NoDup configs.*1 → NoDup (dict_append configs key value).*1.
Proof.
  induction configs as [|[k0 vs] configs IH]; simpl; intros Hnd.
  - apply NoDup_singleton.
  - apply NoDup_cons in Hnd as [Hk0 Hnd].
    destruct (String.eqb_spec k0 key) as [->|Hne]; simpl.
    + by apply NoDup_cons.
    + apply NoDup_cons. split; [|by apply IH].
      rewrite list_elem_of_In, dict_append_keys, <- list_elem_of_In.
      by intros [?|?].
Qed.

(** Appending adds one path to the paths held by the dictionary. *)
Lemma dict_append_paths configs key value :
  concat (dict_append configs key value).*2 ≡ₚ value :: concat configs.*2.
Proof.
  induction configs as [|[k0 vs] configs IH]; simpl; [done|].
  destruct (String.eqb k0 key); simpl.
  - rewrite <- app_assoc. simpl. by rewrite <- Permutation_middle.
  - rewrite IH. by rewrite <- Permutation_middle.
Qed.

Section discoverer.
Lemma visit_loop_keys paths configs :
  NoDup configs.*1 → NoDup (fold_left visit paths configs).*1.
Proof.
  revert configs. induction paths as [|path paths IH]; intros configs Hnd; [done|].
  simpl. apply IH. unfold visit.
  destruct (skipped path); [done|]. by apply dict_append_NoDup.
Qed.

Lemma visit_loop_paths paths configs :
  concat (fold_left visit paths configs).*2
  ≡ₚ concat configs.*2 ++ map path_str (kept paths).
Proof.
  revert configs. induction paths as [|path paths IH]; intros configs; simpl.
  - by rewrite app_nil_r.
  - rewrite IH. unfold visit. destruct (skipped path); simpl; [done|].
    rewrite dict_append_paths. by rewrite <- Permutation_middle.
Qed.

Lemma visit_loop_get paths configs k s :
  In s (dict_get (fold_left visit paths configs) k)
  ↔ In s (dict_get configs k)
    ∨ ∃ path, In path paths ∧ skipped path = false
              ∧ path_name path = k ∧ path_str path = s.
Proof.
  revert configs. induction paths as [|path paths IH]; intros configs; simpl.
  - split; [by left|]. by intros [?|(? & [] & _)].
  - rewrite IH. unfold visit. destruct (skipped path) eqn:Hskip.
    + split.
      * intros [?|(p & ? & ? & ? & ?)]; [by left|]. right. exists p. auto.
      * intros [?|(p & [<-|?] & ? & ? & ?)]; [by left|congruence|].
        right. by exists p.
    + rewrite dict_get_append.
      destruct (String.eqb_spec (path_name path) k) as [<-|Hne].
      * rewrite in_app_iff. simpl. split.
        -- intros [[?|[<-|[]]]|(p & ? & ? & ? & ?)].
           ++ by left.
           ++ right. exists path. auto.
           ++ right. exists p. auto.
        -- intros [?|(p & [<-|?] & ? & ? & <-)].
           ++ by left; left.
           ++ left; right; by left.
           ++ right. by exists p.
      * split.
        -- intros [?|(p & ? & ? & ? & ?)]; [by left|]. right. exists p. auto.
        -- intros [?|(p & [<-|?] & ? & ? & ?)]; [by left|done|].
           right. by exists p.
Qed.

Lemma pattern_loop_keys tree patterns configs :
  NoDup configs.*1 →
  NoDup (fold_left
           (fun configs pattern => fold_left visit (rglob tree pattern) configs)
           patterns configs).*1.
Proof.
  revert configs. induction patterns as [|pattern patterns IH];
    intros configs Hnd; [done|].
  simpl. by apply IH, visit_loop_keys.
Qed.

Lemma pattern_loop_paths tree patterns configs :
  concat (fold_left
            (fun configs pattern => fold_left visit (rglob tree pattern) configs)
            patterns configs).*2
  ≡ₚ concat configs.*2
     ++ map path_str (kept (flat_map (rglob tree) patterns)).
Proof.
  revert configs. induction patterns as [|pattern patterns IH];
    intros configs; simpl.
  - by rewrite app_nil_r.
  - rewrite IH, visit_loop_paths. unfold kept.
    by rewrite List.filter_app, map_app, app_assoc.
Qed.

Lemma pattern_loop_get tree patterns configs k s :
  In s (dict_get
          (fold_left
             (fun configs pattern => fold_left visit (rglob tree pattern) configs)
             patterns configs) k)
  ↔ In s (dict_get configs k)
    ∨ ∃ pattern path, In pattern patterns ∧ In path (rglob tree pattern)
                      ∧ skipped path = false
                      ∧ path_name path = k ∧ path_str path = s.
Proof.
  revert configs. induction patterns as [|pattern patterns IH];
    intros configs; simpl.
  - split; [by left|]. by intros [?|(? & ? & [] & _)].
  - rewrite IH, visit_loop_get. split.
    + intros [[?|(p & ? & ?)]|(q & p & ? & ?)].
      * by left.
      * right. exists pattern, p. auto.
      * right. exists q, p. auto.
    + intros [?|(q & p & [<-|?] & ?)].
      * by left; left.
      * left. right. by exists p.
      * right. by exists q, p.
Qed.

(** The keys of the result are pairwise different, as those of a
    dictionary are. *)
Lemma find_config_files_keys tree : NoDup (find_config_files tree).*1.
Proof. apply pattern_loop_keys. constructor. Qed.

(** The paths of the result, all groups together, are the strings of the
    matched paths that the guard keeps. *)
Lemma find_config_files_paths tree :
  concat (find_config_files tree).*2
  ≡ₚ map path_str (kept (flat_map (rglob tree) CONFIG_PATTERNS)).
Proof. unfold find_config_files. by rewrite pattern_loop_paths. Qed.

(** What is found under a name: the strings of the matched paths with
    that basename that the guard keeps. *)
Lemma find_config_files_get tree k s :
  In s (dict_get (find_config_files tree) k)
  ↔ ∃ pattern path, In pattern CONFIG_PATTERNS ∧ In path (rglob tree pattern)
                    ∧ skipped path = false
                    ∧ path_name path = k ∧ path_str path = s.
Proof.
  unfold find_config_files. rewrite pattern_loop_get. simpl.
  split; [by intros [[]|?]|by right].
Qed.

Lemma rglob_NoDup tree patterns :
  NoDup tree → NoDup patterns →
  (∀ p q name, In p patterns → In q patterns →
     fnmatch p name = true → fnmatch q name = true → p = q) →
  NoDup (flat_map (rglob tree) patterns).
Proof.
  intros Htree. induction patterns as [|p patterns IH]; intros Hnd Hdisj; simpl.
  - constructor.
  - apply NoDup_cons in Hnd as [Hp Hnd]. apply NoDup_app. split; [|split].
    + unfold rglob. by apply NoDup_ListNoDup, List.NoDup_filter, NoDup_ListNoDup.
    + intros path Hin Hin'. apply list_elem_of_In in Hin, Hin'.
      apply List.filter_In in Hin as [_ Hmatch].
      apply in_flat_map in Hin' as (q & Hq & Hin').
      apply List.filter_In in Hin' as [_ Hmatch'].
      assert (p = q) as -> by (apply (Hdisj p q (path_name path)); simpl; auto).
      by apply Hp, list_elem_of_In.
    + apply IH; [done|]. intros q q' name Hq Hq'. apply Hdisj; simpl; auto.
Qed.
End discoverer.

(** When the paths of all groups together have no repetition, a path lies
    in one group only. *)
Lemma one_group (configs : ConfigGroups) k k' ps ps' (s : string) :
  NoDup (concat configs.*2) →
  In (k, ps) configs → In (k', ps') configs → In s ps → In s ps' → k = k'.
Proof.
  induction configs as [|[k0 vs] configs IH]; [done|]. simpl.
  intros [Hvs [Hdisj Hrest]]%NoDup_app Hin Hin' Hs Hs'.
  assert (∀ key group, In (key, group) configs → In s group →
            s ∈ concat configs.*2) as Hlater.
  { intros key group Hgroup Hsg. apply list_elem_of_In, in_concat.
    exists group. split; [|done]. apply in_map_iff. by exists (key, group). }
  destruct Hin as [[= -> ->]|Hin], Hin' as [[= -> ->]|Hin'].
  - done.
  - destruct (Hdisj s); [by apply list_elem_of_In|eauto].
  - destruct (Hdisj s); [by apply list_elem_of_In|eauto].
  - by apply IH.
Qed.

Lemma group_NoDup (configs : ConfigGroups) k (ps : list string) :
  NoDup (concat configs.*2) → In (k, ps) configs → NoDup ps.
Proof.
  induction configs as [|[k0 vs] configs IH]; [done|]. simpl.
  intros [Hvs [_ Hrest]]%NoDup_app [[= -> ->]|Hin]; [done|by apply IH].
Qed.

(** C10: no file name matches two of the five patterns; so, in a tree whose
    entries are pairwise different, the paths held by the result, all groups
    together, are pairwise different: a discovered path lies in one group
    only, and once in that group's list. *)
Theorem discovered_once (tree : list Path) :
  NoDup tree →
  Forall wf_path tree →
  let configs := find_config_files tree in
  (∀ p q name, In p CONFIG_PATTERNS → In q CONFIG_PATTERNS →
     fnmatch p name = true → fnmatch q name = true → p = q)
  ∧ NoDup (concat configs.*2)
  ∧ (∀ k k' ps ps' s, In (k, ps) configs → In (k', ps') configs →
       In s ps → In s ps' → k = k')
  ∧ (∀ k ps, In (k, ps) configs → NoDup ps).
Proof.
  intros Htree Hwf configs.
  assert (NoDup (concat configs.*2)) as Hall.
  { unfold configs. rewrite find_config_files_paths.
    apply NoDup_fmap_2_strong.
    - intros x y Hx Hy. apply path_str_inj.
      + apply list_elem_of_In, List.filter_In in Hx as [Hx _].
        apply in_flat_map in Hx as (p & _ & Hx).
        apply List.filter_In in Hx as [Hx _].
        rewrite Forall_forall in Hwf. by apply Hwf, list_elem_of_In.
      + apply list_elem_of_In, List.filter_In in Hy as [Hy _].
        apply in_flat_map in Hy as (p & _ & Hy).
        apply List.filter_In in Hy as [Hy _].
        rewrite Forall_forall in Hwf. by apply Hwf, list_elem_of_In.
    - apply NoDup_ListNoDup, List.NoDup_filter, NoDup_ListNoDup.
      apply rglob_NoDup; [done| |].
      + apply (bool_decide_unpack _). vm_compute. reflexivity.
      + intros p q name. apply config_patterns_disjoint. }
  split; [intros p q name; apply config_patterns_disjoint|].
  split; [done|]. split.
  - intros k k' ps ps' s. by apply one_group.
  - intros k ps. by apply group_NoDup.
Qed.

Lemma discovered_once_witness :
  NoDup (concat (find_config_files sample_tree).*2).
Proof.
  refine (proj1 (proj2 (discovered_once sample_tree _ _))).
  - apply (bool_decide_unpack _). vm_compute. reflexivity.
  - unfold sample_tree, wf_path.
    repeat (apply Forall_cons; split; [split; [done|]; repeat constructor|]).
    apply Forall_nil_2.
Defined.

(** C1, at the input [.github/workflows/ci.yml]: the path is matched by
    [*.yml] and none of its components is an excluded name, yet the guard
    skips it, because ".git" is a substring of the path string; nothing is
    discovered. *)
Theorem github_workflow_dropped :
  let path := [".github"; "workflows"; "ci.yml"] in
  In path (rglob [path] "*.yml")
  ∧ (∀ part, In part path → ¬ In part EXCLUDED)
  ∧ skipped path = true
  ∧ find_config_files [path] = [].
Proof.
  simpl. split; [by left|]. split; [|split; reflexivity].
  intros part [<-|[<-|[<-|[]]]] [?|[?|[?|[?|[]]]]]; discriminate.
Qed.

(** * Further properties of the code *)

(** ** File Discoverer: what each group holds *)

Lemma dict_get_In (configs : ConfigGroups) k (ps : list string) :
  NoDup configs.*1 → In (k, ps) configs → dict_get configs k = ps.
Proof.
  induction configs as [|[k0 vs] configs IH]; [done|]. simpl.
  intros [Hk0 Hnd]%NoDup_cons [[= -> ->]|Hin].
  - by rewrite String.eqb_refl.
  - destruct (String.eqb_spec k0 k) as [->|]; [|by apply IH].
    destruct Hk0. apply list_elem_of_In, in_map_iff. by exists (k, ps).
Qed.

Lemma dict_get_nonempty (configs : ConfigGroups) k :
  dict_get configs k ≠ [] → In (k, dict_get configs k) configs.
Proof.
  induction configs as [|[k0 vs] configs IH]; [done|]. simpl.
  destruct (String.eqb_spec k0 k) as [->|]; [by left|]. intros H. right. by apply IH.
Qed.

Lemma dict_append_nonempty (configs : ConfigGroups) key value :
  Forall (fun group => group.2 ≠ []) configs →
  Forall (fun group => group.2 ≠ []) (dict_append configs key value).
Proof.
  induction configs as [|[k0 vs] configs IH]; simpl; intros Hall.
  - by repeat constructor.
  - apply Forall_cons in Hall as [Hvs Hall].
    destruct (String.eqb k0 key); apply Forall_cons; split; simpl; auto.
    by destruct vs.
Qed.

Lemma visit_loop_nonempty paths (configs : ConfigGroups) :
  Forall (fun group => group.2 ≠ []) configs →
  Forall (fun group => group.2 ≠ []) (fold_left visit paths configs).
Proof.
  revert configs. induction paths as [|path paths IH]; intros configs Hall; [done|].
  simpl. apply IH. unfold visit.
  destruct (skipped path); [done|]. by apply dict_append_nonempty.
Qed.

Lemma pattern_loop_nonempty tree patterns (configs : ConfigGroups) :
  Forall (fun group => group.2 ≠ []) configs →
  Forall (fun group => group.2 ≠ [])
    (fold_left
       (fun configs pattern => fold_left visit (rglob tree pattern) configs)
       patterns configs).
Proof.
  revert configs. induction patterns as [|pattern patterns IH];
    intros configs Hall; [done|].
  simpl. by apply IH, visit_loop_nonempty.
Qed.

(** A key exists only once a path has been appended under it. *)
Lemma find_config_files_nonempty tree :
  Forall (fun group => group.2 ≠ []) (find_config_files tree).
Proof. apply pattern_loop_nonempty. constructor. Qed.

Lemma visit_loop_group paths configs k :
  dict_get (fold_left visit paths configs) k
  = dict_get configs k
    ++ map path_str
         (List.filter (fun p => String.eqb (path_name p) k && negb (skipped p))
            paths).
Proof.
  revert configs. induction paths as [|path paths IH]; intros configs; simpl.
  - by rewrite app_nil_r.
  - rewrite IH. unfold visit. destruct (skipped path); simpl.
    + by rewrite andb_false_r.
    + rewrite andb_true_r, dict_get_append.
      destruct (String.eqb (path_name path) k) eqn:Hname; [|done].
      apply String.eqb_eq in Hname as ->. by rewrite <- app_assoc.
Qed.

Lemma pattern_loop_group tree patterns configs k :
  dict_get
    (fold_left
       (fun configs pattern => fold_left visit (rglob tree pattern) configs)
       patterns configs) k
  = dict_get configs k
    ++ map path_str
         (List.filter (fun p => String.eqb (path_name p) k && negb (skipped p))
            (flat_map (rglob tree) patterns)).
Proof.
  revert configs. induction patterns as [|pattern patterns IH];
    intros configs; simpl.
  - by rewrite app_nil_r.
  - rewrite IH, visit_loop_group.
    by rewrite List.filter_app, map_app, app_assoc.
Qed.

(** Among the entries named [k], a pattern selects all or none. *)
Lemma rglob_named tree pattern k :
  List.filter (fun p => String.eqb (path_name p) k && negb (skipped p))
    (rglob tree pattern)
  = if fnmatch pattern k
    then List.filter (fun p => String.eqb (path_name p) k && negb (skipped p)) tree
    else [].
Proof.
  unfold rglob. induction tree as [|path tree IH]; simpl.
  - by destruct (fnmatch pattern k).
  - destruct (String.eqb_spec (path_name path) k) as [Hname|Hname]; simpl.
    + rewrite Hname. destruct (fnmatch pattern k) eqn:Hmatch; simpl.
      * rewrite Hname, String.eqb_refl. simpl. rewrite IH.
        by destruct (skipped path).
      * done.
    + destruct (fnmatch pattern (path_name path)); simpl.
      * destruct (String.eqb_spec (path_name path) k); [done|]. simpl. apply IH.
      * apply IH.
Qed.

Lemma rglob_all_named tree patterns k :
  NoDup patterns →
  (∀ p q, In p patterns → In q patterns →
     fnmatch p k = true → fnmatch q k = true → p = q) →
  List.filter (fun p => String.eqb (path_name p) k && negb (skipped p))
    (flat_map (rglob tree) patterns)
  = if existsb (fun pattern => fnmatch pattern k) patterns
    then List.filter (fun p => String.eqb (path_name p) k && negb (skipped p)) tree
    else [].
Proof.
  induction patterns as [|pattern patterns IH]; intros Hnd Hdisj; [done|].
  apply NoDup_cons in Hnd as [Hpattern Hnd]. simpl.
  rewrite List.filter_app, rglob_named, IH; [|done|].
  - destruct (fnmatch pattern k) eqn:Hmatch; simpl; [|done].
    destruct (existsb _ patterns) eqn:Hother; [|by rewrite app_nil_r].
    apply existsb_exists in Hother as (q & Hq & Hmatch').
    destruct Hpattern. apply list_elem_of_In.
    by rewrite (Hdisj pattern q) by (simpl; auto).
  - intros p q Hp Hq. apply Hdisj; simpl; auto.
Qed.

(** X1: the group of a name [k] exists exactly when [k] matches one of the
    five patterns and some entry named [k] passes the guard; it then holds
    the strings of all entries named [k] that pass the guard, in traversal
    order. No group is empty. *)
Theorem group_contents (tree : list Path) (k : string) (ps : list string) :
  In (k, ps) (find_config_files tree)
  ↔ existsb (fun pattern => fnmatch pattern k) CONFIG_PATTERNS = true
    ∧ ps = map path_str
             (List.filter
                (fun p => String.eqb (path_name p) k && negb (skipped p)) tree)
    ∧ ps ≠ [].
Proof.
  assert (dict_get (find_config_files tree) k
          = if existsb (fun pattern => fnmatch pattern k) CONFIG_PATTERNS
            then map path_str
                   (List.filter
                      (fun p => String.eqb (path_name p) k && negb (skipped p))
                      tree)
            else []) as Hget.
  { unfold find_config_files. rewrite pattern_loop_group. simpl dict_get.
    rewrite app_nil_l, rglob_all_named.
    - by destruct (existsb _ _).
    - apply (bool_decide_unpack _). vm_compute. reflexivity.
    - intros p q Hp Hq. by apply config_patterns_disjoint. }
  split.
  - intros Hin.
    pose proof (dict_get_In _ _ _ (find_config_files_keys tree) Hin) as Hps.
    pose proof (find_config_files_nonempty tree) as Hne.
    rewrite Forall_forall in Hne. apply list_elem_of_In, Hne in Hin. simpl in Hin.
    rewrite Hget in Hps. destruct (existsb _ _); [done|]. by subst ps.
  - intros (Hmatch & -> & Hne). rewrite Hmatch in Hget.
    rewrite <- Hget. apply dict_get_nonempty. by rewrite Hget.
Qed.

(** X2: no path of the result contains an excluded name, as a substring of
    its string; in particular an entry with a component equal to an excluded
    name is in no group. *)
Theorem excluded_never_discovered
    (tree : list Path) (k : string) (ps : list string) (part : string) :
  In (k, ps) (find_config_files tree) →
  In part EXCLUDED →
  (∀ s, In s ps → str_contains part s = false)
  ∧ (∀ path, In part path → ¬ In (path_str path) ps).
Proof.
  intros Hin Hpart.
  assert (∀ s, In s ps → str_contains part s = false) as Hfree.
  { intros s Hs.
    rewrite <- (dict_get_In _ _ _ (find_config_files_keys tree) Hin) in Hs.
    apply find_config_files_get in Hs as (pattern & path & _ & _ & Hkept & _ & <-).
    destruct (str_contains part (path_str path)) eqn:Hsub; [|done].
    assert (skipped path = true); [|congruence].
    apply skipped_iff. by exists part. }
  split; [done|]. intros path Hcomp Hs. apply Hfree in Hs.
  by rewrite component_in_path_str in Hs.
Qed.

Lemma excluded_never_discovered_witness :
  ¬ In "venv/lib/settings.py" ["config.json"; "sub/config.json"].
Proof.
  refine (proj2 (excluded_never_discovered sample_tree "config.json"
                   ["config.json"; "sub/config.json"] "venv" _ _)
            ["venv"; "lib"; "settings.py"] _).
  - vm_compute. tauto.
  - simpl. tauto.
  - simpl. tauto.
Defined.

(** ** Config Comparator: what is reported, and in which order *)

Lemma group_issues_inv (fs : gmap string file) (item : string * list string) i :
  In i (group_issues fs item) →
  i = Issue item.1 item.2 true
  ∧ (1 < length item.2)%nat
  ∧ ∃ p q, In p item.2 ∧ In q item.2 ∧ content_value fs p ≠ content_value fs q.
Proof.
  unfold group_issues.
  destruct (1 <? length item.2)%nat eqn:Hlen; [|done]. simpl.
  destruct (1 <? distinct_contents _)%nat eqn:Hdiff; [|done].
  intros [<-|[]]. split; [done|]. split; [by apply Nat.ltb_lt|].
  by apply distinct_contents_gt_1.
Qed.

(** X3: every reported issue is justified: it carries the name and the whole
    path list of one group of the dictionary, the marker [True], at least
    two paths, and two of its paths have different content values. This
    needs no assumption on the dictionary. *)
Theorem issues_justified (fs : gmap string file) (configs : ConfigGroups) :
  ∃ issues,
    compare_configs fs configs = Returned issues
    ∧ ∀ i, In i issues →
        In (issue_file i, issue_paths i) configs
        ∧ issue_differences i = true
        ∧ (2 ≤ length (issue_paths i))%nat
        ∧ ∃ p q, In p (issue_paths i) ∧ In q (issue_paths i)
                 ∧ content_value fs p ≠ content_value fs q.
Proof.
  exists (flat_map (group_issues fs) configs).
  split; [apply compare_configs_returns|].
  intros i (item & Hitem & Hi)%in_flat_map.
  apply group_issues_inv in Hi as (-> & Hlen & Hdiff). simpl.
  split; [by destruct item|]. split; [done|]. split; [lia|done].
Qed.

Lemma issues_sublist (fs : gmap string file) (configs : ConfigGroups) :
  sublist
    (map (fun i => (issue_file i, issue_paths i))
       (flat_map (group_issues fs) configs)) configs.
Proof.
  induction configs as [|[k ps] configs IH]; simpl; [constructor|].
  unfold group_issues at 1. simpl. destruct (_ && _); simpl.
  - by apply sublist_skip.
  - by apply sublist_cons.
Qed.

(** X4: the issues come out in the order of the dictionary, at most one per
    group: the reported (name, paths) pairs form a subsequence of the
    dictionary's items. *)
Theorem issues_in_order (fs : gmap string file) (configs : ConfigGroups) :
  ∃ issues,
    compare_configs fs configs = Returned issues
    ∧ sublist (map (fun i => (issue_file i, issue_paths i)) issues) configs
    ∧ (length issues ≤ length configs)%nat.
Proof.
  exists (flat_map (group_issues fs) configs).
  split; [apply compare_configs_returns|].
  pose proof (issues_sublist fs configs) as Hsub.
  split; [done|]. apply sublist_length in Hsub. by rewrite length_map in Hsub.
Qed.

(** X5: whether a group is reported depends on the set of its paths only,
    not on their order or repetition. *)
Theorem verdict_ignores_order
    (fs : gmap string file) (k : string) (paths paths' : list string) :
  (∀ p, In p paths ↔ In p paths') →
  (1 < length paths)%nat →
  (1 < length paths')%nat →
  (compare_configs fs [(k, paths)] = Returned []
   ↔ compare_configs fs [(k, paths')] = Returned []).
Proof.
  intros Hsame Hlen Hlen'. rewrite !compare_configs_returns. simpl.
  rewrite !app_nil_r. unfold group_issues. simpl.
  apply Nat.ltb_lt in Hlen, Hlen'. rewrite Hlen, Hlen'. simpl.
  destruct (1 <? distinct_contents (versions fs paths))%nat eqn:Hd;
    destruct (1 <? distinct_contents (versions fs paths'))%nat eqn:Hd';
    try done; exfalso.
  - apply distinct_contents_gt_1 in Hd as (p & q & Hp & Hq & Hne).
    assert ((1 <? distinct_contents (versions fs paths'))%nat = true);
      [|congruence].
    apply distinct_contents_gt_1. exists p, q. by rewrite <- !Hsame.
  - apply distinct_contents_gt_1 in Hd' as (p & q & Hp & Hq & Hne).
    assert ((1 <? distinct_contents (versions fs paths))%nat = true);
      [|congruence].
    apply distinct_contents_gt_1. exists p, q. by rewrite !Hsame.
Qed.

Lemma verdict_ignores_order_witness :
  compare_configs sample_fs
    [("app.yaml", ["deploy/app.yaml"; "deploy/old/app.yaml"])] = Returned []
  ↔ compare_configs sample_fs
      [("app.yaml", ["deploy/old/app.yaml"; "deploy/app.yaml"; "deploy/app.yaml"])]
    = Returned [].
Proof.
  apply (verdict_ignores_order sample_fs "app.yaml"
           ["deploy/app.yaml"; "deploy/old/app.yaml"]
           ["deploy/old/app.yaml"; "deploy/app.yaml"; "deploy/app.yaml"]).
  - intros p. simpl. tauto.
  - simpl. lia.
  - simpl. lia.
Defined.

(** ** Environment Auditor: what the result can and cannot contain *)

Lemma audit_shape (env : gmap string string) (suspect : string) :
  audit env [] suspect = []
  ∨ audit env [] suspect = [localhost_msg suspect]
  ∨ audit env [] suspect = [not_set_msg suspect].
Proof.
  pose proof (audit_cases env suspect) as H.
  destruct (env !! suspect); [destruct (_ && _)|]; auto.
Qed.

(** X6: the result shows no value of any variable: each of its entries is
    one of the two fixed messages for one of the five suspects, and there
    are at most five entries. *)
Theorem env_messages_fixed (env : gmap string string) :
  (∀ msg, In msg (check_env_vars env) →
     ∃ suspect, In suspect SUSPECTS
       ∧ (msg = localhost_msg suspect ∨ msg = not_set_msg suspect))
  ∧ (length (check_env_vars env) ≤ 5)%nat.
Proof.
  split.
  - intros msg (s & Hs & Hmsg)%in_check_env_vars. exists s. split; [done|].
    destruct (audit_shape env s) as [H|[H|H]]; rewrite H in Hmsg;
      [done|destruct Hmsg as [<-|[]]; auto..].
  - rewrite check_env_vars_flat. unfold SUSPECTS. simpl.
    rewrite !length_app.
    assert (∀ s, (length (audit env [] s) ≤ 1)%nat) as Hone.
    { intros s. destruct (audit_shape env s) as [H|[H|H]]; rewrite H; simpl; lia. }
    pose proof (Hone "DATABASE_URL"). pose proof (Hone "API_KEY").
    pose proof (Hone "SECRET"). pose proof (Hone "DEBUG").
    pose proof (Hone "ENVIRONMENT"). simpl. lia.
Qed.

Lemma audit_frame (env env' : gmap string string) (suspect : string) :
  env !! suspect = env' !! suspect →
  env !! "ENVIRONMENT" = env' !! "ENVIRONMENT" →
  audit env [] suspect = audit env' [] suspect.
Proof. unfold audit, environ_get. by intros -> ->. Qed.

(** X7: the result depends on the five suspect variables only: two
    environments that agree on them give the same result. *)
Theorem env_other_variables_ignored (env env' : gmap string string) :
  (∀ suspect, In suspect SUSPECTS → env !! suspect = env' !! suspect) →
  check_env_vars env = check_env_vars env'.
Proof.
  intros Hagree. rewrite !check_env_vars_flat.
  assert (∀ suspect, In suspect SUSPECTS →
            audit env [] suspect = audit env' [] suspect) as Hsame.
  { intros s Hs. apply audit_frame; apply Hagree; [done|]. simpl. tauto. }
  clear Hagree. induction SUSPECTS as [|s suspects IH]; [done|]. simpl.
  rewrite Hsame by (by left). f_equal. apply IH. intros s' Hs'. apply Hsame. by right.
Qed.

Lemma env_other_variables_ignored_witness :
  check_env_vars sample_env
  = check_env_vars (<["PATH" := "/usr/bin:localhost"]> sample_env).
Proof.
  apply (env_other_variables_ignored sample_env
           (<["PATH" := "/usr/bin:localhost"]> sample_env)).
  intros s Hs. simpl in Hs.
  destruct Hs as [<-|[<-|[<-|[<-|[<-|[]]]]]]; reflexivity.
Defined.

(** X8: when the value of ENVIRONMENT (the empty string when unset) does not
    contain "production", no localhost message is emitted whatever the other
    values are: the result is the "not set" messages of the unset suspects,
    in the order of the suspect list. *)
Theorem env_without_production (env : gmap string string) :
  str_contains "production" (environ_get env "ENVIRONMENT" "") = false →
  check_env_vars env
  = map not_set_msg
      (List.filter
         (fun suspect => match env !! suspect with None => true | Some _ => false end)
         SUSPECTS).
Proof.
  intros Hprod. rewrite check_env_vars_flat.
  induction SUSPECTS as [|s suspects IH]; [done|]. simpl. rewrite IH.
  pose proof (audit_cases env s) as Hs.
  destruct (env !! s) as [value|]; [rewrite Hprod, andb_false_r in Hs|];
    by rewrite Hs.
Qed.

Lemma env_without_production_witness :
  check_env_vars (<["ENVIRONMENT" := "staging"]> sample_env)
  = ["SECRET: Not set (probably fine... probably)";
     "DEBUG: Not set (probably fine... probably)"].
Proof.
  rewrite (env_without_production (<["ENVIRONMENT" := "staging"]> sample_env));
    reflexivity.
Defined.

(** X9: the result is empty exactly when all five suspects are set and each
    of them either has no "localhost" in its value or ENVIRONMENT has no
    "production" in its value. *)
Theorem env_clean_iff (env : gmap string string) :
  check_env_vars env = []
  ↔ ∀ suspect, In suspect SUSPECTS →
      ∃ value, env !! suspect = Some value
        ∧ (str_contains "localhost" value = false
           ∨ str_contains "production" (environ_get env "ENVIRONMENT" "") = false).
Proof.
  rewrite check_env_vars_flat. split.
  - intros Hnil s Hs.
    assert (audit env [] s = []) as Hnone.
    { destruct (audit env [] s) as [|msg rest] eqn:Haudit; [done|].
      assert (In msg (flat_map (audit env []) SUSPECTS)) as Hin.
      { apply in_flat_map. exists s. split; [done|]. rewrite Haudit. by left. }
      by rewrite Hnil in Hin. }
    pose proof (audit_cases env s) as Hc. rewrite Hnone in Hc.
    destruct (env !! s) as [value|]; [|done]. exists value. split; [done|].
    destruct (str_contains "localhost" value); [|by left].
    destruct (str_contains "production" _); [done|by right].
  - intros Hall.
    destruct (flat_map (audit env []) SUSPECTS) as [|msg rest] eqn:Hflat; [done|].
    assert (In msg (flat_map (audit env []) SUSPECTS)) as Hin
      by (rewrite Hflat; by left).
    apply in_flat_map in Hin as (s & Hs & Hmsg).
    destruct (Hall s Hs) as (value & Hset & Hwhy).
    pose proof (audit_cases env s) as Hc. rewrite Hset in Hc.
    destruct Hwhy as [Hw|Hw]; rewrite Hw, ?andb_false_r in Hc; simpl in Hc;
      by rewrite Hc in Hmsg.
Qed.

(** ** The whole run *)

Lemma flat_map_nil {A B} (f : A → list B) (xs : list A) :
  flat_map f xs = [] ↔ ∀ x, In x xs → f x = [].
Proof.
  induction xs as [|x xs IH]; simpl; [done|]. split.
  - intros [Hx Hxs]%app_eq_nil y [<-|Hy]; [done|]. by apply IH.
  - intros Hall. rewrite (Hall x) by (by left). simpl. apply IH. auto.
Qed.

(** A group adds no issue exactly when all of its paths have the same
    content value. *)
Lemma group_issues_nil (fs : gmap string file) (item : string * list string) :
  group_issues fs item = []
  ↔ ∀ p q, In p item.2 → In q item.2 → content_value fs p = content_value fs q.
Proof.
  unfold group_issues. split.
  - intros Hnil p q Hp Hq.
    destruct (decide (content_value fs p = content_value fs q)) as [|Hne]; [done|].
    assert ((1 <? distinct_contents (versions fs item.2))%nat = true) as Hdiff.
    { apply distinct_contents_gt_1. by exists p, q. }
    rewrite Hdiff, andb_true_r in Hnil.
    destruct (1 <? length item.2)%nat eqn:Hlen; [done|].
    apply Nat.ltb_ge in Hlen.
    destruct item.2 as [|x [|y rest]]; simpl in *; [done| |lia].
    destruct Hp as [<-|[]], Hq as [<-|[]]. done.
  - intros Hsame.
    destruct (1 <? distinct_contents (versions fs item.2))%nat eqn:Hdiff;
      [|by rewrite andb_false_r].
    apply distinct_contents_gt_1 in Hdiff as (p & q & Hp & Hq & Hne).
    destruct Hne. by apply Hsame.
Qed.

(** X10: [main] returns 0 exactly when, in every discovered group, all
    paths have the same content value, and the environment audit is
    empty. *)
Theorem exit_zero_iff
    (tree : list Path) (fs : gmap string file) (env : gmap string string) :
  (∃ out, main tree fs env = Returned (out, 0%Z))
  ↔ (∀ k ps p q, In (k, ps) (find_config_files tree) →
       In p ps → In q ps → content_value fs p = content_value fs q)
    ∧ check_env_vars env = [].
Proof.
  assert (truthy (flat_map (group_issues fs) (find_config_files tree)) = false
          ↔ ∀ k ps p q, In (k, ps) (find_config_files tree) →
              In p ps → In q ps → content_value fs p = content_value fs q)
    as Hfiles.
  { rewrite truthy_false, flat_map_nil. split.
    - intros Hall k ps p q Hin. by apply (group_issues_nil fs (k, ps)), Hall.
    - intros Hall [k ps] Hin. apply group_issues_nil.
      intros p q. apply (Hall k ps p q Hin). }
  rewrite <- Hfiles, <- truthy_false. clear Hfiles.
  unfold main. rewrite compare_configs_returns. simpl.
  destruct (truthy (flat_map _ _)), (truthy (check_env_vars env)); simpl.
  - split; [by intros [out [=]]|by intros [? ?]].
  - split; [by intros [out [=]]|by intros [? ?]].
  - split; [by intros [out [=]]|by intros [? ?]].
  - split; [done|]. intros _. by eexists.
Qed.

(** X11: the report names every finding: for each issue a line with its
    name and the number of its paths, and a line for each of its paths; for
    each entry of the environment audit a bullet line. *)
Theorem report_lists_findings
    (tree : list Path) (fs : gmap string file) (env : gmap string string) :
  ∃ issues out code,
    compare_configs fs (find_config_files tree) = Returned issues
    ∧ main tree fs env = Returned (out, code)
    ∧ (∀ i, In i issues →
         In ("   • " +:+ issue_file i +:+ " has "
               +:+ pretty (length (issue_paths i)) +:+ " different versions") out
         ∧ ∀ path, In path (issue_paths i) → In ("     - " +:+ path) out)
    ∧ (∀ msg, In msg (check_env_vars env) → In ("   • " +:+ msg) out).
Proof.
  exists (flat_map (group_issues fs) (find_config_files tree)).
  unfold main. rewrite compare_configs_returns.
  cbv beta iota delta [mbind outcome_bind mret outcome_ret].
  generalize (check_env_vars env) as env_issues.
  generalize (flat_map (group_issues fs) (find_config_files tree)) as issues.
  intros issues env_issues.
  assert (∀ i line, In i issues → In line (print_issue i) →
            In line (concat (map print_issue issues))) as Hprint.
  { intros i line Hi Hline. apply in_concat. exists (print_issue i).
    split; [by apply in_map|done]. }
  assert (∀ msg, In msg env_issues →
            In ("   • " +:+ msg) (map (fun i => "   • " +:+ i) env_issues))
    as Hbullet.
  { intros msg. apply (in_map (fun i => "   • " +:+ i)). }
  destruct issues as [|i0 issues], env_issues as [|msg0 env_issues];
    cbn [truthy orb];
    eexists _, _; (split; [reflexivity|]); (split; [reflexivity|]);
    (split; [intros i Hi; split; [|intros path Hpath]|intros msg Hmsg]);
    try done; rewrite !in_app_iff.
  all: try (pose proof (Hprint i _ Hi (or_introl eq_refl)); tauto).
  all: try (assert (In ("     - " +:+ path) (print_issue i)) as Hline
              by (right; by apply (in_map (fun p => "     - " +:+ p)));
            pose proof (Hprint i _ Hi Hline); tauto).
  all: pose proof (Hbullet msg Hmsg); tauto.
Qed.

(** X12: in a run, the report has at most one issue per file name, and every
    path listed under an issue is the string of a tree entry with that name
    which passed the guard. *)
Theorem one_issue_per_name (tree : list Path) (fs : gmap string file) :
  ∃ issues,
    compare_configs fs (find_config_files tree) = Returned issues
    ∧ NoDup (map issue_file issues)
    ∧ ∀ i s, In i issues → In s (issue_paths i) →
        ∃ path, In path tree ∧ skipped path = false
                ∧ path_name path = issue_file i ∧ path_str path = s.
Proof.
  exists (flat_map (group_issues fs) (find_config_files tree)).
  split; [apply compare_configs_returns|]. split.
  - apply (sublist_NoDup _ (find_config_files tree).*1);
      [apply find_config_files_keys|].
    pose proof (issues_sublist fs (find_config_files tree)) as Hsub.
    apply (fmap_sublist fst) in Hsub.
    rewrite <- list_fmap_compose in Hsub. exact Hsub.
  - intros i s (item & Hitem & Hi)%in_flat_map Hs.
    apply group_issues_inv in Hi as (-> & _). simpl in *.
    destruct item as [k ps]. simpl in *.
    rewrite <- (dict_get_In _ _ _ (find_config_files_keys tree) Hitem) in Hs.
    apply find_config_files_get in Hs
      as (pattern & path & _ & Hpath & Hkept & Hname & Hstr).
    exists path. apply List.filter_In in Hpath as [Hpath _]. done.
Qed.

(** ** The five patterns *)

Lemma is_literal_cons c s :
  is_literal (String c s) = true
  ↔ Ascii.eqb c "*" = false ∧ Ascii.eqb c "?" = false ∧ is_literal s = true.
Proof.
  unfold is_literal. rewrite !has_char_cons.
  rewrite (Ascii.eqb_sym "*" c), (Ascii.eqb_sym "?" c).
  destruct (Ascii.eqb c "*"), (Ascii.eqb c "?"),
    (has_char "*" s), (has_char "?" s); simpl; intuition congruence.
Qed.

(** Literal characters at the front of a pattern are matched one by one. *)
Lemma fnmatch_literal_prefix pre pat name :
  is_literal pre = true →
  fnmatch (pre +:+ pat) name = true
  ↔ ∃ rest, name = pre +:+ rest ∧ fnmatch pat rest = true.
Proof.
  revert name. induction pre as [|c pre IH]; intros name Hlit.
  - rewrite append_nil_l. split; [by exists name|]. by intros (rest & -> & ?).
  - apply is_literal_cons in Hlit as (Hstar & Hany & Hlit).
    rewrite append_cons. destruct name as [|a name].
    + simpl. rewrite Hstar, Hany. split; [done|]. by intros (rest & ? & _).
    + rewrite fnmatch_char_cons by done.
      destruct (Ascii.eqb_spec c a) as [->|Hne].
      * rewrite IH by done. split; intros (rest & Hname & Hrest); exists rest.
        -- by rewrite append_cons, Hname.
        -- rewrite append_cons in Hname. by injection Hname.
      * split; [done|]. intros (rest & Hname & _).
        rewrite append_cons in Hname. congruence.
Qed.

(** [*] stands for any run of characters, the empty one included. *)
Lemma fnmatch_star_iff pat name :
  fnmatch (String "*" pat) name = true
  ↔ ∃ u v, name = u +:+ v ∧ fnmatch pat v = true.
Proof.
  induction name as [|a name IH].
  - rewrite fnmatch_star_nil. split.
    + intros H. by exists "", "".
    + intros (u & v & Hname & Hv). destruct u; [|done].
      rewrite append_nil_l in Hname. by subst v.
  - rewrite fnmatch_star_cons.
    destruct (fnmatch pat (String a name)) eqn:Hhere.
    + split; [|done]. intros _. by exists "", (String a name).
    + rewrite IH. split.
      * intros (u & v & -> & Hv). by exists (String a u), v.
      * intros (u & v & Hname & Hv). destruct u as [|b u].
        -- rewrite append_nil_l in Hname. subst v. congruence.
        -- rewrite append_cons in Hname. injection Hname as _ ->. by exists u, v.
Qed.

(** A pattern with one [*] between literal characters matches the names that
    start with the first part and go on to end with the second. *)
Lemma fnmatch_one_star pre suf name :
  is_literal pre = true → is_literal suf = true →
  fnmatch (pre +:+ String "*" suf) name = true
  ↔ ∃ mid, name = pre +:+ mid +:+ suf.
Proof.
  intros Hpre Hsuf. rewrite fnmatch_literal_prefix by done. split.
  - intros (rest & -> & (u & v & -> & Hv)%fnmatch_star_iff).
    apply fnmatch_literal in Hv as ->; [|done]. by exists u.
  - intros (mid & ->). exists (mid +:+ suf). split; [done|].
    apply fnmatch_star_iff. exists mid, suf. split; [done|].
    pose proof (proj2 (fnmatch_literal_prefix suf "" suf Hsuf)) as Hself.
    rewrite append_nil_r in Hself. apply Hself. exists "".
    by rewrite append_nil_r.
Qed.

(** X13: the names that the discoverer looks for: [.env] itself, names that
    start with [config] and go on to end with [.json], names that start with
    [settings] and go on to end with [.py], and names that end with [.yaml]
    or with [.yml]. *)
Theorem discoverable_names (name : string) :
  existsb (fun pattern => fnmatch pattern name) CONFIG_PATTERNS = true
  ↔ name = ".env"
    ∨ (∃ mid, name = "config" +:+ mid +:+ ".json")
    ∨ (∃ mid, name = "settings" +:+ mid +:+ ".py")
    ∨ (∃ stem, name = stem +:+ ".yaml")
    ∨ (∃ stem, name = stem +:+ ".yml").
Proof.
  assert (fnmatch ".env" name = true ↔ name = ".env") as Henv.
  { split; [apply fnmatch_literal; reflexivity|]. intros ->. reflexivity. }
  assert (fnmatch "config*.json" name = true
          ↔ ∃ mid, name = "config" +:+ mid +:+ ".json") as Hjson
    by (apply (fnmatch_one_star "config" ".json"); reflexivity).
  assert (fnmatch "settings*.py" name = true
          ↔ ∃ mid, name = "settings" +:+ mid +:+ ".py") as Hpy
    by (apply (fnmatch_one_star "settings" ".py"); reflexivity).
  assert (fnmatch "*.yaml" name = true ↔ ∃ stem, name = stem +:+ ".yaml") as Hyaml
    by (apply (fnmatch_one_star "" ".yaml"); reflexivity).
  assert (fnmatch "*.yml" name = true ↔ ∃ stem, name = stem +:+ ".yml") as Hyml
    by (apply (fnmatch_one_star "" ".yml"); reflexivity).
  unfold CONFIG_PATTERNS. cbn [existsb]. rewrite !orb_true_iff. split.
  - intros [H|[H|[H|[H|[H|H]]]]].
    + left. exact (proj1 Henv H).
    + right; left. exact (proj1 Hjson H).
    + right; right; left. exact (proj1 Hpy H).
    + right; right; right; left. exact (proj1 Hyaml H).
    + right; right; right; right. exact (proj1 Hyml H).
    + discriminate H.
  - intros [H|[H|[H|[H|H]]]].
    + left. exact (proj2 Henv H).
    + right; left. exact (proj2 Hjson H).
    + right; right; left. exact (proj2 Hpy H).
    + right; right; right; left. exact (proj2 Hyaml H).
    + right; right; right; right; left. exact (proj2 Hyml H).
Qed.
